(** * DexieStorageProvider: a shallow embedding and its verified properties

    Source: packages/core/src/services/storage/dexieStorageProvider.ts

    The provider is a key-value store on top of a Dexie (IndexedDB) table.
    Its methods are asynchronous; every one of them is modelled here as a
    computation in a state-and-exception monad over a [World] that holds the
    table, the settled outcome of the open promise, the outcomes the backing
    engine will give to the coming calls, the readings of [Date.now()] and
    the sequence of backing-engine calls and timers made so far.  The
    per-key lock of [atomicUpdate], which only matters when several calls
    are in flight, is modelled separately as an event loop ([Module
    EventLoop]). *)

From Stdlib Require Import ZArith Lia DecimalString.
From stdpp Require Import gmap strings list fin_maps pretty.

Local Open Scope string_scope.
Local Open Scope Z_scope.
Local Open Scope list_scope.

(** ** JavaScript values that can be thrown *)

(** Anything can be thrown in JavaScript.  [JsError name message] is an
    object with a [name] and a [message] (an [Error], a Dexie error, a
    [SyntaxError]); [JsThrown v] is any other thrown value, shown as text. *)
Inductive JsValue : Type :=
| JsError (name message : string)
| JsThrown (v : string).

(** [new Error(message)]: the name of a plain [Error] is "Error". *)
Definition new_Error (message : string) : JsValue := JsError "Error" message.

(** [isError], lines 171-173. *)
Definition isError (error : JsValue) : bool :=
  match error with
  | JsError _ _ => true
  | JsThrown _ => false
  end.

(** [error.name === n]; a value without a name has [undefined] there. *)
Definition name_is (error : JsValue) (n : string) : bool :=
  match error with
  | JsError name _ => bool_decide (name = n)
  | JsThrown _ => false
  end.

(** [error.message] inside a template string. *)
Definition message_of (error : JsValue) : string :=
  match error with
  | JsError _ message => message
  | JsThrown _ => "undefined"
  end.

(** Truthiness, for [lastError || ...]: an object is truthy, a text is
    truthy unless empty. *)
Definition truthy (v : JsValue) : bool :=
  match v with
  | JsError _ _ => true
  | JsThrown s => negb (bool_decide (s = ""))
  end.

(** The outcome of an awaited computation. *)
Inductive Result (A : Type) : Type :=
| Returned (a : A)
| Thrown (e : JsValue).
Arguments Returned {A} a.
Arguments Thrown {A} e.

(** ** The backing table and the world around the provider *)

(** [interface StorageRecord], lines 7-11. *)
Record StorageRecord : Type := mkRecord {
  key : string;
  value : string;
  timestamp : option Z
}.

(** What the provider asks of its collaborators, in order. *)
Inductive Event : Type :=
| EvTransaction                      (* db.transaction('rw', ...) opened *)
| EvCommit                           (* the transaction body ended, commit *)
| EvGet (k : string)
| EvPut (k : string)
| EvDelete (k : string)
| EvClear
| EvBulkPut (ks : list string)
| EvBulkDelete (ks : list string)
| EvCount
| EvLast                             (* orderBy('timestamp').last() *)
| EvToArray
| EvSleep (ms : Z).                  (* setTimeout(resolve, ms), awaited *)

Record World : Type := mkWorld {
  storage : gmap string StorageRecord;  (* the table db.storage *)
  dbOpened : option JsValue;            (* this.dbOpened once settled:
                                           None fulfilled, Some e rejected *)
  faults : list (option JsValue);       (* what the engine answers to the
                                           coming calls: Some e, it fails *)
  clock : nat -> Z;                     (* the n-th reading of Date.now() *)
  ticks : nat;                          (* readings taken so far *)
  trace : list Event                    (* calls made so far *)
}.

Definition set_storage (s : gmap string StorageRecord) (w : World) : World :=
  mkWorld s (dbOpened w) (faults w) (clock w) (ticks w) (trace w).

Definition set_faults (f : list (option JsValue)) (w : World) : World :=
  mkWorld (storage w) (dbOpened w) f (clock w) (ticks w) (trace w).

Definition set_ticks (n : nat) (w : World) : World :=
  mkWorld (storage w) (dbOpened w) (faults w) (clock w) n (trace w).

Definition log (ev : Event) (w : World) : World :=
  mkWorld (storage w) (dbOpened w) (faults w) (clock w) (ticks w)
          (trace w ++ [ev]).

(** ** The monad of asynchronous methods *)

Definition M (A : Type) : Type := World -> Result A * World.

Definition ret {A} (a : A) : M A := fun w => (Returned a, w).

Definition throw {A} (e : JsValue) : M A := fun w => (Thrown e, w).

Definition bind {A B} (c : M A) (k : A -> M B) : M B := fun w =>
  match c w with
  | (Returned a, w') => k a w'
  | (Thrown e, w') => (Thrown e, w')
  end.

(** [try { c } catch (error) { h error }]. *)
Definition try_catch {A} (c : M A) (h : JsValue -> M A) : M A := fun w =>
  match c w with
  | (Returned a, w') => (Returned a, w')
  | (Thrown e, w') => h e w'
  end.

Declare Scope js_scope.
Delimit Scope js_scope with js.
Notation "x <- c1 ;; c2" := (bind c1 (fun x => c2))
  (at level 100, c1 at next level, right associativity) : js_scope.
Notation "c1 ;; c2" := (bind c1 (fun _ => c2))
  (at level 100, right associativity) : js_scope.
Local Open Scope js_scope.

(** [Date.now()]. *)
Definition Date_now : M Z := fun w =>
  (Returned (clock w (ticks w)), set_ticks (S (ticks w)) w).

(** [await new Promise(resolve => setTimeout(resolve, ms))]. *)
Definition sleep (ms : Z) : M unit := fun w => (Returned tt, log (EvSleep ms) w).

(** ** The Dexie table (external collaborator)

    Every call is recorded and takes its outcome from [faults]: [Some e]
    makes the call fail with [e] and leave the table as it was, [None] or an
    exhausted list lets it succeed. *)
Definition engine (ev : Event) : M unit := fun w =>
  match faults w with
  | Some e :: rest => (Thrown e, set_faults rest (log ev w))
  | None :: rest => (Returned tt, set_faults rest (log ev w))
  | [] => (Returned tt, log ev w)
  end.

Definition read {A} (f : gmap string StorageRecord -> A) : M A := fun w =>
  (Returned (f (storage w)), w).

Definition write (f : gmap string StorageRecord -> gmap string StorageRecord)
  : M unit := fun w => (Returned tt, set_storage (f (storage w)) w).

Definition put_record (r : StorageRecord) (s : gmap string StorageRecord)
  : gmap string StorageRecord := <[key r := r]> s.

Definition bulk_put (rs : list StorageRecord) (s : gmap string StorageRecord)
  : gmap string StorageRecord := foldl (fun acc r => put_record r acc) s rs.

Definition bulk_delete (ks : list string) (s : gmap string StorageRecord)
  : gmap string StorageRecord := foldl (fun acc k => delete k acc) s ks.

(** The records of the table as an array. *)
Definition to_array (s : gmap string StorageRecord) : list StorageRecord :=
  (map_to_list s).*2.

(** Of two records, the one that comes later in the [timestamp] index; a
    record without a timestamp is not in the index. *)
Definition later (best : option StorageRecord) (r : StorageRecord)
  : option StorageRecord :=
  match timestamp r, best with
  | None, _ => best
  | Some _, None => Some r
  | Some t, Some b =>
      match timestamp b with
      | Some tb => if tb <=? t then Some r else Some b
      | None => Some r
      end
  end.

Definition last_by_timestamp (s : gmap string StorageRecord)
  : option StorageRecord := foldl later None (to_array s).

Module Table.
Definition get (k : string) : M (option StorageRecord) :=
  engine (EvGet k) ;; read (fun s => s !! k).
Definition put (r : StorageRecord) : M unit :=
  engine (EvPut (key r)) ;; write (put_record r).
Definition delete (k : string) : M unit :=
  engine (EvDelete k) ;; write (base.delete k).
Definition clear : M unit :=
  engine EvClear ;; write (fun _ => ∅).
Definition bulkPut (rs : list StorageRecord) : M unit :=
  engine (EvBulkPut (key <$> rs)) ;; write (bulk_put rs).
Definition bulkDelete (ks : list string) : M unit :=
  engine (EvBulkDelete ks) ;; write (bulk_delete ks).
Definition count : M nat :=
  engine EvCount ;; read (fun s => size s).
Definition orderBy_timestamp_last : M (option StorageRecord) :=
  engine EvLast ;; read last_by_timestamp.
Definition toArray : M (list StorageRecord) :=
  engine EvToArray ;; read to_array.
End Table.

(** [db.transaction('rw', db.storage, body)]: opening can fail; the body
    runs against the table; if the body throws, or if the commit fails, the
    table is put back as it was when the transaction opened and the failure
    is thrown on. *)
Definition transaction {A} (body : M A) : M A := fun w =>
  match engine EvTransaction w with
  | (Thrown e, w1) => (Thrown e, w1)
  | (Returned _, w1) =>
      match body w1 with
      | (Thrown e, w2) => (Thrown e, set_storage (storage w1) w2)
      | (Returned a, w2) =>
          match engine EvCommit w2 with
          | (Thrown e, w3) => (Thrown e, set_storage (storage w1) w3)
          | (Returned _, w3) => (Returned a, w3)
          end
      end
  end.

(** ** The provider's plain methods *)

(** [initialize], lines 57-59: awaits the promise made once by the
    constructor, lines 47-51, which rethrows the failure of [db.open()]. *)
Definition initialize : M unit := fun w =>
  match dbOpened w with
  | None => (Returned tt, w)
  | Some error => (Thrown error, w)
  end.

(** [getItem], lines 72-82. *)
Definition getItem (key : string) : M (option string) :=
  initialize ;;
  try_catch
    (record <- Table.get key ;;
     ret (value <$> record))
    (fun error => throw (new_Error ("Failed to get item: " +:+ key))).

(** [setItem], lines 87-100. *)
Definition setItem (key value : string) : M unit :=
  initialize ;;
  try_catch
    (now <- Date_now ;;
     Table.put (mkRecord key value (Some now)))
    (fun error => throw (new_Error ("Failed to set item: " +:+ key))).

(** [removeItem], lines 105-114. *)
Definition removeItem (key : string) : M unit :=
  initialize ;;
  try_catch
    (Table.delete key)
    (fun error => throw (new_Error ("Failed to remove item: " +:+ key))).

(** [clearAll], lines 119-128. *)
Definition clearAll : M unit :=
  initialize ;;
  try_catch
    Table.clear
    (fun error => throw (new_Error "Failed to clear storage")).

(** ** Batch update, statistics, export and import *)

Inductive Operation : Type := OpSet | OpRemove.

(** An element of the argument of [batchUpdate], lines 294-298; [op_value]
    is [None] when the [value] field is [undefined]. *)
Record BatchOp : Type := mkOp {
  op_key : string;
  operation : Operation;
  op_value : option string
}.

(** The [for ... of] loop of lines 306-316, which fills the two arrays
    [updates] and [deletions]. *)
Fixpoint collect (operations : list BatchOp)
    (updates : list StorageRecord) (deletions : list string)
  : M (list StorageRecord * list string) :=
  match operations with
  | [] => ret (updates, deletions)
  | mkOp key operation value :: rest =>
      match operation, value with
      | OpSet, Some value =>
          now <- Date_now ;;
          collect rest (updates ++ [mkRecord key value (Some now)]) deletions
      | OpRemove, _ =>
          collect rest updates (deletions ++ [key])
      | OpSet, None =>
          collect rest updates deletions
      end
  end.

(** [batchUpdate], lines 294-332. *)
Definition batchUpdate (operations : list BatchOp) : M unit :=
  initialize ;;
  try_catch
    (transaction
       (staged <- collect operations [] [] ;;
        let '(updates, deletions) := staged in
        (if (0 <? length updates)%nat then Table.bulkPut updates else ret tt) ;;
        (if (0 <? length deletions)%nat then Table.bulkDelete deletions
         else ret tt)))
    (fun error => throw (new_Error "Failed to perform batch update")).

(** The result of [getStorageInfo], lines 337-341. *)
Record StorageInfo : Type := mkInfo {
  itemCount : nat;
  estimatedSize : nat;
  lastUpdated : option Z
}.

Definition zero_info : StorageInfo := mkInfo 0 0 None.

(** [getStorageInfo], lines 337-370.  The length of a value is counted in
    characters of the modelled string. *)
Definition getStorageInfo : M StorageInfo :=
  initialize ;;
  try_catch
    (itemCount <- Table.count ;;
     lastRecord <- Table.orderBy_timestamp_last ;;
     allRecords <- Table.toArray ;;
     let estimatedSize :=
       foldl (fun total record => (total + String.length (value record))%nat)
             0%nat allRecords in
     ret (mkInfo itemCount estimatedSize (lastRecord ≫= timestamp)))
    (fun error => ret zero_info).

(** [exportAll], lines 375-391: the result object as a finite map. *)
Definition exportAll : M (gmap string string) :=
  initialize ;;
  try_catch
    (allRecords <- Table.toArray ;;
     ret (foldl (fun result record => <[key record := value record]> result)
                ∅ allRecords))
    (fun error => throw (new_Error "Failed to export data")).

(** [Object.entries(data).map(...)] of lines 400-404; [data] is given by its
    entries. *)
Fixpoint entries_to_records (entries : list (string * string))
  : M (list StorageRecord) :=
  match entries with
  | [] => ret []
  | (key, value) :: rest =>
      now <- Date_now ;;
      records <- entries_to_records rest ;;
      ret (mkRecord key value (Some now) :: records)
  end.

(** [importAll], lines 396-411. *)
Definition importAll (data : list (string * string)) : M unit :=
  initialize ;;
  try_catch
    (records <- entries_to_records data ;;
     Table.bulkPut records)
    (fun error => throw (new_Error "Failed to import data")).

(** ** The atomic update engine *)

Section AtomicUpdateEngine.

(** The caller's value type with its JSON codec: [JSON_parse] gives [None]
    where [JSON.parse] throws a [SyntaxError]. *)
Context {T : Type}.
Variable JSON_parse : string -> option T.
Variable JSON_stringify : T -> string.

(** [currentRecord?.value ? JSON.parse(currentRecord.value) : null]: an
    absent record and an empty text both give [null]. *)
Definition current_value (currentRecord : option StorageRecord)
  : M (option T) :=
  match currentRecord with
  | None => ret None
  | Some r =>
      if bool_decide (value r = "") then ret None
      else match JSON_parse (value r) with
           | Some v => ret (Some v)
           | None => throw (JsError "SyntaxError" "Unexpected token in JSON")
           end
  end.

(** A call of the caller's function, which may throw. *)
Definition call (updateFn : option T -> Result T) (currentValue : option T)
  : M T := fun w => (updateFn currentValue, w).

(** [_performSimpleUpdate], lines 221-245. *)
Definition _performSimpleUpdate (key : string)
    (updateFn : option T -> Result T) : M unit :=
  try_catch
    (currentRecord <- Table.get key ;;
     currentValue <- current_value currentRecord ;;
     newValue <- call updateFn currentValue ;;
     now <- Date_now ;;
     Table.put (mkRecord key (JSON_stringify newValue) (Some now)))
    (fun error =>
       throw (new_Error ("Failed to perform simple update: " +:+ key))).

(** [_performAtomicUpdate], lines 250-289. *)
Definition _performAtomicUpdate (key : string)
    (updateFn : option T -> Result T) : M unit :=
  try_catch
    (transaction
       (try_catch
          (currentRecord <- Table.get key ;;
           currentValue <- current_value currentRecord ;;
           newValue <- call updateFn currentValue ;;
           now <- Date_now ;;
           Table.put (mkRecord key (JSON_stringify newValue) (Some now)))
          (fun innerError => throw innerError)))
    (fun error =>
       if isError error && name_is error "PrematureCommitError" then
         throw (new_Error ("Database transaction error for key " +:+ key
                           +:+ ": " +:+ message_of error
                           +:+ ". Please try again."))
       else
         throw (new_Error ("Failed to perform atomic update: " +:+ key))).

(** The [for] loop of lines 185-213, followed by line 215.  [remaining]
    counts the iterations still to run, so that the loop variable is
    [attempt = maxRetries - remaining + 1]. *)
Fixpoint retry_loop (key : string) (updateFn : option T -> Result T)
    (maxRetries remaining : nat) (lastError : option JsValue) : M unit :=
  match remaining with
  | O =>
      match lastError with
      | Some e =>
          if truthy e then throw e
          else throw (new_Error ("Failed to perform atomic update after "
                                 +:+ pretty maxRetries +:+ " attempts"))
      | None => throw (new_Error ("Failed to perform atomic update after "
                                  +:+ pretty maxRetries +:+ " attempts"))
      end
  | S rest =>
      let attempt := (maxRetries - rest)%nat in
      try_catch
        (_performAtomicUpdate key updateFn)
        (fun error =>
           if isError error && name_is error "PrematureCommitError"
              && (attempt <? maxRetries)%nat then
             let delay :=
               Z.min (100 * 2 ^ (Z.of_nat attempt - 1)) 1000 in
             sleep delay ;;
             retry_loop key updateFn maxRetries rest (Some error)
           else if (attempt =? maxRetries)%nat then
             try_catch
               (_performSimpleUpdate key updateFn)
               (fun fallbackError => throw error)
           else
             retry_loop key updateFn maxRetries rest (Some error))
  end.

(** [_performAtomicUpdateWithRetry], lines 178-216. *)
Definition _performAtomicUpdateWithRetry (key : string)
    (updateFn : option T -> Result T) (maxRetries : nat) : M unit :=
  retry_loop key updateFn maxRetries maxRetries None.

(** [atomicUpdate], lines 134-154, for a call made while no other atomic
    update of the same key is in flight: [keyLocks] has no entry under
    the lock key, the call installs its own promise, awaits it and deletes
    the entry, so the table of locks is the same before and after.  Calls
    that overlap are the subject of [Module EventLoop]. *)
Definition atomicUpdate (key : string) (updateFn : option T -> Result T)
  : M unit :=
  initialize ;;
  _performAtomicUpdateWithRetry key updateFn 3.

(** [updateData], lines 160-166. *)
Definition updateData (key : string) (modifier : option T -> Result T)
  : M unit :=
  atomicUpdate key modifier.

End AtomicUpdateEngine.

(** ** Overlapping calls of [atomicUpdate]: the table of key locks

    JavaScript runs one continuation at a time; a call runs until its next
    [await] and is resumed, after the awaited promise has settled, in the
    order in which the awaits were registered.  The state below is what the
    provider and the loop hold between two events.  Two events drive it: a
    caller invokes [atomicUpdate] ([invoke]), and an invocation of
    [_performAtomicUpdateWithRetry] in flight comes to its end ([settle]).
    The accesses to the table of an invocation in flight are all taken at
    the instant it settles, which is the most favourable reading for the
    provider: accesses of two invocations never interleave. *)

Module EventLoop.
Section Callers.

Context {T : Type}.
Variable JSON_parse : string -> option T.
Variable JSON_stringify : T -> string.

(** A call [atomicUpdate(key, updateFn)], with a name for the caller. *)
Record Call : Type := mkCall {
  caller : nat;
  call_key : string;
  call_fn : option T -> Result T
}.

(** A call suspended at an [await]; promises are numbered. *)
Inductive Continuation : Type :=
| AwaitsLock (c : Call) (p : nat)   (* line 143, the promise found *)
| AwaitsOwn (c : Call) (p : nat).   (* line 150, its own lockPromise *)

Definition awaited (k : Continuation) : nat :=
  match k with
  | AwaitsLock _ p => p
  | AwaitsOwn _ p => p
  end.

Record Loop : Type := mkLoop {
  world : World;
  keyLocks : gmap string nat;            (* line 43 *)
  in_flight : list (nat * Call);         (* promises not yet settled, with
                                            the invocation each stands for *)
  settled : gmap nat (Result unit);
  suspended : list Continuation;         (* in order of registration *)
  finished : list (nat * Result unit);   (* caller, outcome of its call *)
  next_promise : nat
}.

Definition idle (w : World) : Loop := mkLoop w ∅ [] ∅ [] [] 0.

(** [const lockKey = `atomic_${key}`], line 141. *)
Definition lockKey (c : Call) : string := "atomic_" +:+ call_key c.

Definition finish (c : Call) (r : Result unit) (l : Loop) : Loop :=
  mkLoop (world l) (keyLocks l) (in_flight l) (settled l) (suspended l)
         (finished l ++ [(caller c, r)]) (next_promise l).

(** Lines 146-150: the invocation starts, its promise is stored under the
    lock key, and the call awaits it. *)
Definition start (c : Call) (l : Loop) : Loop :=
  let lockPromise := next_promise l in
  mkLoop (world l)
         (<[lockKey c := lockPromise]> (keyLocks l))
         (in_flight l ++ [(lockPromise, c)])
         (settled l)
         (suspended l ++ [AwaitsOwn c lockPromise])
         (finished l)
         (S lockPromise).

(** A suspended call goes on with the outcome [r] of the promise it
    awaited.  After line 143 the call does not look at [keyLocks] again:
    it starts its invocation if the awaited promise was fulfilled, and
    fails with the reason of that promise if it was rejected (line 143 is
    outside the [try]).  After line 150 the [finally] deletes the entry
    under the lock key and the call ends as its promise did. *)
Definition resume (k : Continuation) (r : Result unit) (l : Loop) : Loop :=
  match k with
  | AwaitsLock c _ =>
      match r with
      | Returned _ => start c l
      | Thrown e => finish c (Thrown e) l
      end
  | AwaitsOwn c _ =>
      finish c r
        (mkLoop (world l) (delete (lockKey c) (keyLocks l)) (in_flight l)
                (settled l) (suspended l) (finished l) (next_promise l))
  end.

(** A caller invokes [atomicUpdate], lines 138-150 up to the first
    [await] that suspends on a pending promise. *)
Definition invoke (c : Call) (l : Loop) : Loop :=
  match initialize (world l) with
  | (Thrown e, _) => finish c (Thrown e) l
  | (Returned _, _) =>
      match keyLocks l !! lockKey c with
      | Some p =>
          match settled l !! p with
          | Some r => resume (AwaitsLock c p) r l
          | None =>
              mkLoop (world l) (keyLocks l) (in_flight l) (settled l)
                     (suspended l ++ [AwaitsLock c p]) (finished l)
                     (next_promise l)
          end
      | None => start c l
      end
  end.

Definition find_in_flight (p : nat) (l : Loop) : option Call :=
  snd <$> List.find (fun pc => bool_decide (pc.1 = p)) (in_flight l).

(** The invocation behind promise [p] comes to its end: the promise
    settles, and the calls awaiting it are resumed in the order in which
    they registered. *)
Definition settle (p : nat) (l : Loop) : option Loop :=
  match find_in_flight p l with
  | None => None
  | Some c =>
      let '(r, w') :=
        _performAtomicUpdateWithRetry JSON_parse JSON_stringify
          (call_key c) (call_fn c) 3 (world l) in
      let waiting :=
        List.filter (fun k => bool_decide (awaited k = p)) (suspended l) in
      let others :=
        List.filter (fun k => negb (bool_decide (awaited k = p)))
                    (suspended l) in
      let l1 :=
        mkLoop w' (keyLocks l)
               (List.filter (fun pc => negb (bool_decide (pc.1 = p)))
                            (in_flight l))
               (<[p := r]> (settled l)) others (finished l)
               (next_promise l) in
      Some (foldl (fun acc k => resume k r acc) l1 waiting)
  end.

Inductive Action : Type :=
| Invoke (c : Call)
| Settle (p : nat).

Definition step (a : Action) (l : Loop) : option Loop :=
  match a with
  | Invoke c => Some (invoke c l)
  | Settle p => settle p l
  end.

Fixpoint run (actions : list Action) (l : Loop) : option Loop :=
  match actions with
  | [] => Some l
  | a :: rest =>
      match step a l with
      | Some l' => run rest l'
      | None => None
      end
  end.

(** The invocations in flight for a key. *)
Definition executing (key : string) (l : Loop) : list nat :=
  (fun pc => caller pc.2) <$>
    List.filter (fun pc => bool_decide (call_key pc.2 = key)) (in_flight l).

End Callers.
End EventLoop.

(** ** A codec for examples: natural numbers as decimal JSON numbers *)

Definition JSON_parse_nat (s : string) : option nat :=
  Nat.of_uint <$> NilEmpty.uint_of_string s.

Definition JSON_stringify_nat (n : nat) : string :=
  NilEmpty.string_of_uint (Nat.to_uint n).

(** [x => (x ?? 0) + 1] *)
Definition increment (x : option nat) : Result nat :=
  Returned (S (default 0%nat x)).

(** A provider whose store opened, with an empty table, a clock that
    starts at 1000 and advances by one at each reading, and the given
    outcomes for the coming engine calls. *)
Definition fresh_world (f : list (option JsValue)) : World :=
  mkWorld ∅ None f (fun n => 1000 + Z.of_nat n) 0 [].

(** A provider whose store failed to open with [e]. *)
Definition unopened_world (e : JsValue) : World :=
  mkWorld ∅ (Some e) [] (fun n => 1000 + Z.of_nat n) 0 [].

(** ** Vocabulary of the statements *)

(** The engine answers the next [n] calls without failure. *)
Definition quiet (n : nat) (w : World) : bool :=
  forallb (fun f => match f with None => true | Some _ => false end)
          (take n (faults w)).

(** The statistics of a table, as lines 345-361 compute them. *)
Definition storage_stats (s : gmap string StorageRecord) : StorageInfo :=
  mkInfo (size s)
         (foldl (fun total record => (total + String.length (value record))%nat)
                0%nat (to_array s))
         (last_by_timestamp s ≫= timestamp).

(** The keys and values a batch sets (entries with a defined value), and
    the keys it removes, both in list order. *)
Definition sets_of (operations : list BatchOp) : list (string * string) :=
  omap (fun o => match operation o, op_value o with
                 | OpSet, Some v => Some (op_key o, v)
                 | _, _ => None
                 end) operations.

Definition removes_of (operations : list BatchOp) : list string :=
  omap (fun o => match operation o with
                 | OpRemove => Some (op_key o)
                 | OpSet => None
                 end) operations.

(** The value of the last entry of [kvs] under key [k]. *)
Definition last_value (k : string) (kvs : list (string * string))
  : option string :=
  snd <$> last (filter (fun kv => kv.1 = k) kvs).

(** The reading of the batch contract by list order: the last entry of the
    list that names a key decides what becomes of that key. *)
Definition last_occurrence (k : string) (operations : list BatchOp)
  : option BatchOp :=
  last (filter (fun o => op_key o = k) operations).

Definition last_occurrence_decides (operations : list BatchOp)
    (after : gmap string StorageRecord) : Prop :=
  forall k,
    match last_occurrence k operations with
    | Some (mkOp _ OpSet (Some v)) => value <$> after !! k = Some v
    | Some (mkOp _ OpRemove _) => after !! k = None
    | _ => True
    end.

(** The delays waited for, as recorded in a trace. *)
Definition waits (tr : list Event) : list Z :=
  omap (fun ev => match ev with EvSleep ms => Some ms | _ => None end) tr.

(** A computation that starts no timer. *)
Definition timerless {A} (c : M A) : Prop :=
  forall w, waits (trace (c w).2) = waits (trace w).

(** A failure that Dexie reports when a transaction could not commit. *)
Definition commit_conflict : JsValue :=
  JsError "PrematureCommitError" "Transaction committed too early".

(** A failure of the engine that no retry can cure. *)
Definition quota_exceeded : JsValue :=
  JsError "QuotaExceededError" "The quota has been exceeded".

(** ** Proof tactics *)

Ltac unfold_monad :=
  unfold bind, try_catch, ret, throw, read, write, engine, Date_now, sleep,
    initialize, set_storage, set_faults, set_ticks, log in *.

Ltac simpl_world :=
  cbn [storage dbOpened faults clock ticks trace fst snd key value timestamp
       quiet take forallb andb] in *.

(** * Verified properties *)

(** ** Elementary facts about the monad and the engine *)

Lemma initialize_opened w : dbOpened w = None -> initialize w = (Returned tt, w).
Proof. unfold initialize. intros ->. reflexivity. Qed.

Lemma initialize_failed w e :
  dbOpened w = Some e -> initialize w = (Thrown e, w).
Proof. unfold initialize. intros ->. reflexivity. Qed.

Lemma after_failed_initialize {A} (c : M A) w e :
  dbOpened w = Some e -> (initialize ;; c) w = (Thrown e, w).
Proof. intros H. unfold bind. rewrite (initialize_failed _ _ H). reflexivity. Qed.

Lemma after_initialize {A} (c : M A) w :
  dbOpened w = None -> (initialize ;; c) w = c w.
Proof. intros H. unfold bind. rewrite (initialize_opened _ H). reflexivity. Qed.

Lemma engine_storage ev w : storage (engine ev w).2 = storage w.
Proof. unfold engine. destruct (faults w) as [|[e|] rest]; reflexivity. Qed.

Lemma engine_dbOpened ev w : dbOpened (engine ev w).2 = dbOpened w.
Proof. unfold engine. destruct (faults w) as [|[e|] rest]; reflexivity. Qed.

Lemma engine_quiet ev n w :
  quiet (S n) w = true ->
  exists w', engine ev w = (Returned tt, w') /\ quiet n w' = true
             /\ storage w' = storage w /\ dbOpened w' = dbOpened w.
Proof.
  unfold quiet, engine. destruct w as [s o fs c t tr]; cbn.
  destruct fs as [|[e|] rest]; cbn.
  - intros _. eexists. split; [reflexivity|]. cbn. by rewrite take_nil.
  - discriminate.
  - intros H. eexists. split; [reflexivity|]. by cbn.
Qed.

(** ** C7: a failed open fails every operation *)

(** C7. If the one-time open of the store failed with [e], then every
    operation that awaits [initialize] fails with that same [e]; it makes no
    call to the engine, takes no clock reading, and so leaves the world,
    the open promise included, as it was: the open is not tried again. *)
Theorem failed_open_fails_every_operation
    {T} (JSON_parse : string -> option T) (JSON_stringify : T -> string)
    (w : World) (e : JsValue) (k v : string) (f : option T -> Result T)
    (operations : list BatchOp) (data : list (string * string)) :
  dbOpened w = Some e ->
  getItem k w = (Thrown e, w)
  /\ setItem k v w = (Thrown e, w)
  /\ removeItem k w = (Thrown e, w)
  /\ clearAll w = (Thrown e, w)
  /\ atomicUpdate JSON_parse JSON_stringify k f w = (Thrown e, w)
  /\ updateData JSON_parse JSON_stringify k f w = (Thrown e, w)
  /\ batchUpdate operations w = (Thrown e, w)
  /\ getStorageInfo w = (Thrown e, w)
  /\ exportAll w = (Thrown e, w)
  /\ importAll data w = (Thrown e, w).
Proof.
  intros H.
  unfold getItem, setItem, removeItem, clearAll, updateData, atomicUpdate,
    batchUpdate, getStorageInfo, exportAll, importAll.
  repeat split; apply after_failed_initialize, H.
Qed.

Lemma failed_open_fails_every_operation_witness :
  let e := JsError "OpenFailedError" "IndexedDB is not available" in
  let w := unopened_world e in
  getItem "k" w = (Thrown e, w)
  /\ setItem "k" "v" w = (Thrown e, w)
  /\ removeItem "k" w = (Thrown e, w)
  /\ clearAll w = (Thrown e, w)
  /\ atomicUpdate JSON_parse_nat JSON_stringify_nat "k" increment w
     = (Thrown e, w)
  /\ updateData JSON_parse_nat JSON_stringify_nat "k" increment w
     = (Thrown e, w)
  /\ batchUpdate [mkOp "k" OpSet (Some "v")] w = (Thrown e, w)
  /\ getStorageInfo w = (Thrown e, w)
  /\ exportAll w = (Thrown e, w)
  /\ importAll [("k", "v")] w = (Thrown e, w).
Proof.
  intros e w.
  apply (failed_open_fails_every_operation JSON_parse_nat JSON_stringify_nat
           w e "k" "v" increment).
  reflexivity.
Defined.

(** ** C8: a value written is the value read *)

Lemma setItem_stores k v w w1 :
  setItem k v w = (Returned tt, w1) ->
  exists t, storage w1 !! k = Some (mkRecord k v t).
Proof.
  unfold setItem, bind at 1, initialize.
  destruct (dbOpened w); [discriminate|].
  unfold try_catch, bind at 1, Date_now, Table.put, bind, engine, write, throw.
  cbn. destruct (faults w) as [|[e|] rest]; cbn; intros H; inversion H; subst;
    cbn; unfold put_record; cbn; rewrite lookup_insert_eq; eauto.
Qed.

Lemma getItem_reads k w r w2 :
  getItem k w = (Returned r, w2) -> r = value <$> storage w !! k.
Proof.
  unfold getItem, bind at 1, initialize.
  destruct (dbOpened w); [discriminate|].
  unfold try_catch, Table.get, bind, engine, read, ret, throw.
  destruct (faults w) as [|[e|] rest]; cbn; intros H; inversion H; reflexivity.
Qed.

(** C8. [setItem(k, v)] followed by [getItem(k)] returns exactly [v]: if
    the write returned, then any later read of [k] that returns, made while
    the record under [k] is still the one written, returns [v]; and when the
    store is open and the engine answers the two calls, the write and the
    read do return. *)
Theorem setItem_getItem_roundtrip (k v : string) (w : World) :
  (forall w1 w1' r w2,
      setItem k v w = (Returned tt, w1) ->
      storage w1' !! k = storage w1 !! k ->
      getItem k w1' = (Returned r, w2) ->
      r = Some v)
  /\ (dbOpened w = None -> quiet 2 w = true ->
      exists w1 w2,
        setItem k v w = (Returned tt, w1)
        /\ getItem k w1 = (Returned (Some v), w2)).
Proof.
  split.
  - intros w1 w1' r w2 Hset Hsame Hget.
    destruct (setItem_stores _ _ _ _ Hset) as [t Ht].
    rewrite (getItem_reads _ _ _ _ Hget), Hsame, Ht. reflexivity.
  - intros Hopen Hquiet. unfold setItem, getItem, Table.put, Table.get.
    destruct w as [s o fs c t tr]. simpl_world. subst o.
    destruct fs as [|[e|] [|[e'|] rest]]; try discriminate;
      unfold_monad; simpl_world; eexists _, _; (split; [reflexivity|]);
      unfold put_record; simpl_world; rewrite lookup_insert_eq; reflexivity.
Qed.

Lemma setItem_getItem_roundtrip_witness :
  exists w1 w2,
    setItem "theme" "dark" (fresh_world []) = (Returned tt, w1)
    /\ getItem "theme" w1 = (Returned (Some "dark"), w2).
Proof.
  apply (setItem_getItem_roundtrip "theme" "dark" (fresh_world []));
    reflexivity.
Defined.

(** ** C9: a [set] entry without a value is skipped *)

Lemma collect_skips_undefined_set before key after :
  forall updates deletions w,
    collect (before ++ mkOp key OpSet None :: after) updates deletions w
    = collect (before ++ after) updates deletions w.
Proof.
  induction before as [|[k o v] before IH]; intros updates deletions w.
  - reflexivity.
  - cbn [app collect]. destruct o, v; apply IH.
Qed.

(** C9. In [batchUpdate], an entry whose operation is [set] and whose value
    is undefined is skipped: the batch with the entry does exactly what the
    batch without it does, on every world: the same result, the same table,
    the same calls to the engine and the same clock readings.  So the entry
    causes no write, no removal and no error, and the other entries are
    applied as they would be without it. *)
Theorem batchUpdate_skips_undefined_set
    (before after : list BatchOp) (key : string) (w : World) :
  batchUpdate (before ++ mkOp key OpSet None :: after) w
  = batchUpdate (before ++ after) w.
Proof.
  unfold batchUpdate, bind, try_catch, transaction.
  destruct (initialize w) as [[[]|e] w0]; [|reflexivity].
  destruct (engine EvTransaction w0) as [[[]|e] w1]; [|reflexivity].
  rewrite collect_skips_undefined_set. reflexivity.
Qed.

(** ** C10: [importAll] merges *)

Lemma entries_to_records_spec data :
  forall w, exists records w',
    entries_to_records data w = (Returned records, w')
    /\ key <$> records = data.*1
    /\ storage w' = storage w /\ faults w' = faults w.
Proof.
  induction data as [|[k v] data IH]; intros w; cbn [entries_to_records].
  - eexists _, _. split; [reflexivity|]. auto.
  - unfold bind at 1, Date_now.
    destruct (IH (set_ticks (S (ticks w)) w)) as (records & w' & Hrun & Hkeys & Hs & Hf).
    unfold bind at 1. rewrite Hrun. unfold ret.
    eexists _, _. split; [reflexivity|].
    cbn [fmap list_fmap key fst]. fold (key <$> records). rewrite Hkeys.
    rewrite Hs, Hf. auto.
Qed.

Lemma bulk_put_cons r rs s : bulk_put (r :: rs) s = bulk_put rs (put_record r s).
Proof. reflexivity. Qed.

Lemma bulk_put_frame rs : forall s k,
  k ∉ key <$> rs -> bulk_put rs s !! k = s !! k.
Proof.
  induction rs as [|r rs IH]; intros s k Hk; [reflexivity|].
  rewrite bulk_put_cons. rewrite fmap_cons in Hk.
  apply not_elem_of_cons in Hk as [Hne Hk].
  rewrite (IH _ _ Hk). unfold put_record. by rewrite lookup_insert_ne.
Qed.

Lemma bulkPut_outcome rs w :
  (exists w', Table.bulkPut rs w = (Returned tt, w')
              /\ storage w' = bulk_put rs (storage w))
  \/ (exists e w', Table.bulkPut rs w = (Thrown e, w')
                   /\ storage w' = storage w).
Proof.
  unfold Table.bulkPut. destruct w as [s o fs c t tr].
  destruct fs as [|[e|] rest]; unfold_monad; simpl_world; eauto.
Qed.

(** C10. [importAll(data)] writes only the keys of [data]: whatever the
    outcome of the call, a key that does not occur in [data] has after the
    call the record, value and timestamp, that it had before (or none, if
    it had none). *)
Theorem importAll_keeps_other_keys
    (data : list (string * string)) (w w' : World) (r : Result unit)
    (k : string) :
  importAll data w = (r, w') ->
  k ∉ data.*1 ->
  storage w' !! k = storage w !! k.
Proof.
  unfold importAll, bind at 1. intros Hrun Hk.
  destruct (initialize w) as [[[]|e] w0] eqn:Hinit.
  - assert (w0 = w) as ->
      by (unfold initialize in Hinit; destruct (dbOpened w); congruence).
    unfold try_catch, bind at 1 in Hrun.
    destruct (entries_to_records_spec data w)
      as (records & w1 & Hrecords & Hkeys & Hs1 & _).
    rewrite Hrecords in Hrun.
    destruct (bulkPut_outcome records w1)
      as [(w2 & Hput & Hs2)|(e & w2 & Hput & Hs2)];
      rewrite Hput in Hrun; unfold throw in Hrun; inversion Hrun; subst.
    + rewrite Hs2, bulk_put_frame, Hs1; [reflexivity|]. by rewrite Hkeys.
    + by rewrite Hs2, Hs1.
  - unfold initialize in Hinit. destruct (dbOpened w); inversion Hinit.
    inversion Hrun. by subst.
Qed.

Lemma importAll_keeps_other_keys_witness :
  let before := mkRecord "theme" "dark" (Some 7) in
  let w := mkWorld {[ "theme" := before ]} None [] (fun n => 1000) 0 [] in
  storage (importAll [("lang", "en"); ("font", "mono")] w).2 !! "theme"
  = storage w !! "theme".
Proof.
  intros before w.
  apply (importAll_keeps_other_keys [("lang", "en"); ("font", "mono")] w
           (importAll [("lang", "en"); ("font", "mono")] w).2
           (importAll [("lang", "en"); ("font", "mono")] w).1 "theme").
  - apply surjective_pairing.
  - vm_compute. intros H. repeat (apply elem_of_cons in H as [H|H]; [discriminate|]).
    by apply elem_of_nil in H.
Defined.

(** ** C5: [getStorageInfo] *)

(** C5 as stated fails where the store did not open: [getStorageInfo]
    awaits [initialize] before its [try], and so raises the failure of the
    open instead of returning the zero-valued result. *)
Lemma getStorageInfo_raises_when_open_failed :
  let e := JsError "OpenFailedError" "IndexedDB is not available" in
  getStorageInfo (unopened_world e) = (Thrown e, unopened_world e)
  /\ (getStorageInfo (unopened_world e)).1 <> Returned zero_info.
Proof. split; [reflexivity|discriminate]. Qed.

(** C5, amended. Once the store has opened, [getStorageInfo] never raises
    and leaves the table as it is: it returns the statistics of the table
    when the engine answers its three queries, and the zero-valued result
    as soon as one of them fails. *)
Theorem getStorageInfo_never_raises_once_open (w : World) :
  dbOpened w = None ->
  exists w',
    getStorageInfo w
    = (Returned (if quiet 3 w then storage_stats (storage w) else zero_info),
       w')
    /\ storage w' = storage w.
Proof.
  intros Hopen. unfold getStorageInfo, Table.count,
    Table.orderBy_timestamp_last, Table.toArray, storage_stats.
  destruct w as [s o fs c t tr]. simpl_world. subst o.
  destruct fs as [|[e1|] [|[e2|] [|[e3|] rest]]];
    unfold_monad; simpl_world; eexists; split; reflexivity.
Qed.

Lemma getStorageInfo_never_raises_once_open_witness :
  exists w',
    getStorageInfo (fresh_world [None; Some (JsError "AbortError" "aborted")])
    = (Returned zero_info, w')
    /\ storage w' = ∅.
Proof.
  apply (getStorageInfo_never_raises_once_open
           (fresh_world [None; Some (JsError "AbortError" "aborted")])).
  reflexivity.
Defined.

(** ** C4: the batch update *)

Lemma engine_outcome ev w :
  (exists w', engine ev w = (Returned tt, w') /\ storage w' = storage w)
  \/ (exists e w', engine ev w = (Thrown e, w') /\ storage w' = storage w).
Proof.
  destruct w as [s o fs c t tr].
  destruct fs as [|[e|] rest]; unfold_monad; simpl_world; eauto.
Qed.

Lemma quiet_S n w : quiet (S n) w = true -> quiet n w = true.
Proof.
  unfold quiet. generalize (faults w). induction n as [|n IH]; intros fs.
  - reflexivity.
  - destruct fs as [|f fs]; [reflexivity|].
    change (take (S (S n)) (f :: fs)) with (f :: take (S n) fs).
    change (take (S n) (f :: fs)) with (f :: take n fs).
    cbn [forallb]. intros [Hf H]%andb_prop.
    by rewrite Hf, (IH fs H).
Qed.

Lemma transaction_outcome {A} (body : M A) w r w' :
  transaction body w = (r, w') ->
  (exists w1 w2 a,
      engine EvTransaction w = (Returned tt, w1) /\ storage w1 = storage w
      /\ body w1 = (Returned a, w2)
      /\ r = Returned a /\ storage w' = storage w2)
  \/ (exists e, r = Thrown e /\ storage w' = storage w).
Proof.
  unfold transaction.
  destruct (engine_outcome EvTransaction w)
    as [(w1 & -> & Hs1)|(e & w1 & -> & Hs1)].
  - destruct (body w1) as [[a|e] w2] eqn:Hbody.
    + destruct (engine_outcome EvCommit w2)
        as [(w3 & -> & Hs3)|(e & w3 & -> & Hs3)]; intros [= <- <-].
      * left. eexists _, _, _. eauto.
      * right. eexists. split; [reflexivity|]. by rewrite <- Hs1.
    + intros [= <- <-]. right. eexists. split; [reflexivity|].
      by rewrite <- Hs1.
  - intros [= <- <-]. right. eauto.
Qed.

Lemma collect_spec operations :
  forall updates deletions w, exists us w',
    collect operations updates deletions w
    = (Returned (updates ++ us, deletions ++ removes_of operations), w')
    /\ (fun r => (key r, value r)) <$> us = sets_of operations
    /\ storage w' = storage w /\ faults w' = faults w
    /\ dbOpened w' = dbOpened w.
Proof.
  induction operations as [|[k o v] operations IH]; intros updates deletions w.
  - exists [], w. cbn. unfold ret. by rewrite !app_nil_r.
  - cbn [collect]. destruct o, v as [v|].
    + unfold bind, Date_now.
      destruct (IH (updates ++ [mkRecord k v (Some (clock w (ticks w)))])
                   deletions (set_ticks (S (ticks w)) w))
        as (us & w' & -> & Hsets & Hs & Hf & Ho).
      exists (mkRecord k v (Some (clock w (ticks w))) :: us), w'.
      rewrite <- app_assoc. split; [reflexivity|].
      cbn. by rewrite Hsets.
    + destruct (IH updates deletions w) as (us & w' & -> & H).
      exists us, w'. auto.
    + destruct (IH updates (deletions ++ [k]) w) as (us & w' & -> & H).
      exists us, w'. rewrite <- app_assoc. auto.
    + destruct (IH updates (deletions ++ [k]) w) as (us & w' & -> & H).
      exists us, w'. rewrite <- app_assoc. auto.
Qed.

Lemma bulk_put_snoc rs r s :
  bulk_put (rs ++ [r]) s = put_record r (bulk_put rs s).
Proof. unfold bulk_put. by rewrite foldl_snoc. Qed.

Lemma last_value_None k kvs : last_value k kvs = None -> k ∉ kvs.*1.
Proof.
  unfold last_value. intros H Hin.
  apply fmap_None, last_None in H.
  apply list_elem_of_fmap in Hin as ([k' v] & -> & Hin).
  eapply (filter_nil_not_elem_of _ _ _ H); [|exact Hin]. reflexivity.
Qed.

Lemma last_value_snoc k kvs k' v :
  last_value k (kvs ++ [(k', v)])
  = if decide (k' = k) then Some v else last_value k kvs.
Proof.
  unfold last_value. rewrite filter_app, filter_cons, filter_nil. cbn [fst].
  case_decide.
  - by rewrite last_snoc.
  - by rewrite app_nil_r.
Qed.

Lemma bulk_put_last_value rs : forall s k v,
  last_value k ((fun r => (key r, value r)) <$> rs) = Some v ->
  value <$> bulk_put rs s !! k = Some v.
Proof.
  induction rs as [|r rs IH] using rev_ind; intros s k v.
  - discriminate.
  - rewrite fmap_app, bulk_put_snoc. cbn [fmap list_fmap].
    rewrite last_value_snoc. unfold put_record. case_decide as Hk.
    + intros [= <-]. subst k. by rewrite lookup_insert_eq.
    + intros H. rewrite lookup_insert_ne by done. by apply IH.
Qed.

Lemma bulk_delete_lookup ks : forall s k,
  bulk_delete ks s !! k = if decide (k ∈ ks) then None else s !! k.
Proof.
  induction ks as [|k' ks IH]; intros s k.
  - cbn. case_decide as H; [by apply elem_of_nil in H|done].
  - change (bulk_delete (k' :: ks) s) with (bulk_delete ks (delete k' s)).
    rewrite IH. destruct (decide (k ∈ ks)) as [Hin|Hnin].
    + rewrite decide_True; [done|]. by apply list_elem_of_further.
    + destruct (decide (k = k')) as [->|Hne].
      * rewrite decide_True by apply list_elem_of_here.
        apply lookup_delete_eq.
      * rewrite decide_False.
        -- by rewrite lookup_delete_ne.
        -- intros [?|?]%elem_of_cons; done.
Qed.

Lemma bulkDelete_outcome ks w :
  (exists w', Table.bulkDelete ks w = (Returned tt, w')
              /\ storage w' = bulk_delete ks (storage w))
  \/ (exists e w', Table.bulkDelete ks w = (Thrown e, w')
                   /\ storage w' = storage w).
Proof.
  unfold Table.bulkDelete. destruct w as [s o fs c t tr].
  destruct fs as [|[e|] rest]; unfold_monad; simpl_world; eauto.
Qed.

Lemma bulkPut_quiet rs n w :
  quiet (S n) w = true ->
  exists w', Table.bulkPut rs w = (Returned tt, w') /\ quiet n w' = true.
Proof.
  intros H. unfold Table.bulkPut, bind.
  destruct (engine_quiet (EvBulkPut (key <$> rs)) n w H) as (w' & -> & Hq & _).
  unfold write. eexists. split; [reflexivity|]. exact Hq.
Qed.

Lemma bulkDelete_quiet ks n w :
  quiet (S n) w = true ->
  exists w', Table.bulkDelete ks w = (Returned tt, w') /\ quiet n w' = true.
Proof.
  intros H. unfold Table.bulkDelete, bind.
  destruct (engine_quiet (EvBulkDelete ks) n w H) as (w' & -> & Hq & _).
  unfold write. eexists. split; [reflexivity|]. exact Hq.
Qed.

(** The body of the transaction of [batchUpdate], lines 303-326. *)
Lemma batch_body_outcome operations n w r w' :
  (staged <- collect operations [] [] ;;
   let '(updates, deletions) := staged in
   (if (0 <? length updates)%nat then Table.bulkPut updates else ret tt) ;;
   (if (0 <? length deletions)%nat then Table.bulkDelete deletions
    else ret tt)) w = (r, w') ->
  (quiet (S (S n)) w = true -> r = Returned tt /\ quiet n w' = true)
  /\ (r = Returned tt ->
      exists us,
        (fun r => (key r, value r)) <$> us = sets_of operations
        /\ storage w'
           = bulk_delete (removes_of operations) (bulk_put us (storage w))).
Proof.
  unfold bind at 1.
  destruct (collect_spec operations [] [] w)
    as (us & w0 & -> & Hsets & Hs0 & Hf0 & _).
  rewrite !app_nil_l.
  assert (forall m, quiet m w = quiet m w0) as Hq
    by (intros m; unfold quiet; by rewrite Hf0).
  unfold bind at 1.
  assert (exists r1 w1,
    (if (0 <? length us)%nat then Table.bulkPut us else ret tt) w0 = (r1, w1)
    /\ (quiet (S (S n)) w0 = true -> r1 = Returned tt /\ quiet (S n) w1 = true)
    /\ (r1 = Returned tt -> storage w1 = bulk_put us (storage w0)))
    as (r1 & w1 & -> & Hq1 & Hs1).
  { destruct us as [|u us]; cbn [length Nat.ltb Nat.leb].
    - eexists _, _. split; [reflexivity|]. split; [|done].
      intros H. split; [done|]. by apply quiet_S.
    - destruct (bulkPut_outcome (u :: us) w0)
        as [(w1 & Hput & Hs)|(e & w1 & Hput & Hs)];
        rewrite Hput; eexists _, _; (split; [reflexivity|]); split; try done.
      + intros H. destruct (bulkPut_quiet (u :: us) (S n) w0 H) as (w2 & H2 & Hq2).
        rewrite Hput in H2. by inversion H2.
      + intros H. destruct (bulkPut_quiet (u :: us) (S n) w0 H) as (w2 & H2 & Hq2).
        rewrite Hput in H2. by inversion H2. }
  destruct r1 as [[]|e1].
  - assert (exists r2 w2,
      (if (0 <? length (removes_of operations))%nat
       then Table.bulkDelete (removes_of operations) else ret tt) w1 = (r2, w2)
      /\ (quiet (S n) w1 = true -> r2 = Returned tt /\ quiet n w2 = true)
      /\ (r2 = Returned tt
          -> storage w2 = bulk_delete (removes_of operations) (storage w1)))
      as (r2 & w2 & -> & Hq2 & Hs2).
    { destruct (removes_of operations) as [|d ds]; cbn [length Nat.ltb Nat.leb].
      - eexists _, _. split; [reflexivity|]. split; [|done].
        intros H. split; [done|]. by apply quiet_S.
      - destruct (bulkDelete_outcome (d :: ds) w1)
          as [(w2 & Hdel & Hs)|(e & w2 & Hdel & Hs)];
          rewrite Hdel; eexists _, _; (split; [reflexivity|]); split; try done;
          intros H;
          destruct (bulkDelete_quiet (d :: ds) n w1 H) as (w3 & H3 & Hq3);
          rewrite Hdel in H3; by inversion H3. }
    intros [= <- <-]. split.
    + intros H. rewrite Hq in H. destruct (Hq1 H) as [_ H1]. by apply Hq2.
    + intros ->. exists us. split; [done|].
      by rewrite Hs2, Hs1, Hs0.
  - intros [= <- <-]. split; [|done].
    intros H. rewrite Hq in H. by destruct (Hq1 H).
Qed.

(** C4 as stated fails on a batch that removes a key and then sets it: the
    last entry for the key is the [set], yet the key is absent after the
    batch, because [batchUpdate] writes all the staged records and only
    then deletes all the staged keys. *)
Lemma batchUpdate_earlier_remove_beats_later_set :
  let operations := [mkOp "a" OpRemove None; mkOp "a" OpSet (Some "1")] in
  let after := batchUpdate operations (fresh_world []) in
  after.1 = Returned tt
  /\ last_occurrence "a" operations = Some (mkOp "a" OpSet (Some "1"))
  /\ storage after.2 !! "a" = None
  /\ ~ last_occurrence_decides operations (storage after.2).
Proof.
  repeat split; try by vm_compute.
  intros H. specialize (H "a"). vm_compute in H. discriminate.
Qed.

(** C4, amended. [batchUpdate] runs in one transaction: either it returns,
    or it raises and the table is as it was before the call; it returns
    when the store is open and the engine answers its (at most four) calls.
    When it returns, a key that the batch removes anywhere in the list is
    absent, whatever the list order; a key that the batch sets and does not
    remove holds the value of its last [set] with a defined value; any
    other key keeps its record. *)
Theorem batchUpdate_removals_prevail
    (operations : list BatchOp) (w w' : World) (r : Result unit) :
  batchUpdate operations w = (r, w') ->
  (dbOpened w = None -> quiet 4 w = true -> r = Returned tt)
  /\ ((r = Returned tt
       /\ forall k,
            if decide (k ∈ removes_of operations)
            then storage w' !! k = None
            else match last_value k (sets_of operations) with
                 | Some v => value <$> storage w' !! k = Some v
                 | None => storage w' !! k = storage w !! k
                 end)
      \/ (exists e, r = Thrown e /\ storage w' = storage w)).
Proof.
  unfold batchUpdate. intros Hrun.
  destruct (dbOpened w) as [e|] eqn:Hopen.
  { rewrite (after_failed_initialize _ _ _ Hopen) in Hrun.
    inversion Hrun; subst. split; [done|]. right. eauto. }
  rewrite (after_initialize _ _ Hopen) in Hrun. unfold try_catch in Hrun.
  destruct (transaction _ w) as [[[]|e] w1] eqn:Htx.
  - inversion Hrun; subst. clear Hrun. split; [done|]. left. split; [done|].
    apply transaction_outcome in Htx
      as [(w0 & w2 & a & _ & Hs1 & Hbody & _ & Hs')|(e & ? & _)]; [|done].
    destruct a.
    apply (batch_body_outcome _ 0) in Hbody as [_ Hbody].
    destruct (Hbody eq_refl) as (us & Hsets & Hs2).
    intros k. rewrite Hs', Hs2, bulk_delete_lookup, Hs1.
    destruct (decide (k ∈ removes_of operations)); [done|].
    rewrite <- Hsets.
    destruct (last_value k ((fun r => (key r, value r)) <$> us))
      as [v|] eqn:Hlast.
    + by apply bulk_put_last_value.
    + apply bulk_put_frame. apply last_value_None in Hlast.
      by rewrite <- list_fmap_compose in Hlast.
  - unfold throw in Hrun. inversion Hrun; subst. clear Hrun. split.
    + intros _ Hquiet. exfalso.
      match type of Htx with transaction ?b w = _ => set (body := b) in * end.
      unfold transaction in Htx.
      destruct (engine_quiet EvTransaction 3 w Hquiet)
        as (w0 & Hbegin & Hq0 & _).
      rewrite Hbegin in Htx.
      destruct (body w0) as [[[]|e'] w2] eqn:Hbody; subst body.
      * apply (batch_body_outcome _ 1) in Hbody as [Hbody _].
        destruct (Hbody Hq0) as [_ Hq2].
        destruct (engine_quiet EvCommit 0 w2 Hq2) as (w3 & Hcommit & _).
        rewrite Hcommit in Htx. discriminate.
      * apply (batch_body_outcome _ 1) in Hbody as [Hbody _].
        by destruct (Hbody Hq0).
    + right. exists (new_Error "Failed to perform batch update").
      split; [done|].
      apply transaction_outcome in Htx
        as [(? & ? & ? & _ & _ & _ & ? & _)|(? & _ & Hs)]; done.
Qed.

Lemma batchUpdate_removals_prevail_witness :
  let operations :=
    [mkOp "a" OpSet (Some "1"); mkOp "b" OpSet (Some "2");
     mkOp "a" OpRemove None; mkOp "b" OpSet (Some "3")] in
  let after := batchUpdate operations (fresh_world []) in
  after.1 = Returned tt
  /\ storage after.2 !! "a" = None
  /\ value <$> storage after.2 !! "b" = Some "3".
Proof.
  intros operations after.
  destruct (batchUpdate_removals_prevail operations (fresh_world [])
              after.2 after.1 (surjective_pairing _))
    as [Hreturns [[_ Hkeys]|(e & He & _)]].
  - split; [apply Hreturns; reflexivity|].
    split; [exact (Hkeys "a")|exact (Hkeys "b")].
  - rewrite (Hreturns eq_refl eq_refl) in He. discriminate.
Defined.

(** ** The retry loop of the atomic update engine *)

Section EngineFacts.

Context {T : Type}.
Variable JSON_parse : string -> option T.
Variable JSON_stringify : T -> string.

Local Abbreviation attemptTx :=
  (_performAtomicUpdate JSON_parse JSON_stringify).
Local Abbreviation fallback :=
  (_performSimpleUpdate JSON_parse JSON_stringify).
Local Abbreviation retry := (retry_loop JSON_parse JSON_stringify).
Local Abbreviation fallback_after key updateFn error :=
  (try_catch (fallback key updateFn) (fun _ => throw error)).

(** Whatever made the transaction fail, [_performAtomicUpdate] throws a
    fresh [Error], lines 284 and 287. *)
Lemma performAtomicUpdate_throws_plain_Error key updateFn w e w' :
  attemptTx key updateFn w = (Thrown e, w') ->
  exists message, e = new_Error message.
Proof.
  unfold _performAtomicUpdate, try_catch at 1.
  destruct (transaction _ w) as [[a|e0] w1]; intros H.
  - discriminate.
  - destruct (isError e0 && name_is e0 "PrematureCommitError");
      unfold throw in H; inversion H; eauto.
Qed.

(** ... and the name of a fresh [Error] is not the one line 194 asks for. *)
Lemma plain_Error_is_not_transient message :
  isError (new_Error message)
  && name_is (new_Error message) "PrematureCommitError" = false.
Proof. reflexivity. Qed.

(** One iteration of the loop: the branch of lines 194-198 is never
    taken. *)
Lemma retry_loop_step key updateFn maxRetries rest lastError w :
  (S rest <= maxRetries)%nat ->
  retry key updateFn maxRetries (S rest) lastError w =
  match attemptTx key updateFn w with
  | (Returned _, w1) => (Returned tt, w1)
  | (Thrown error, w1) =>
      match rest with
      | O => fallback_after key updateFn error w1
      | S _ => retry key updateFn maxRetries rest (Some error) w1
      end
  end.
Proof.
  intros Hle. cbn [retry_loop]. unfold try_catch at 1.
  destruct (attemptTx key updateFn w) as [[[]|error] w1] eqn:Hattempt;
    [reflexivity|].
  destruct (performAtomicUpdate_throws_plain_Error _ _ _ _ _ Hattempt)
    as [message ->].
  rewrite plain_Error_is_not_transient. cbn [andb].
  destruct rest as [|rest'].
  - rewrite Nat.sub_0_r, Nat.eqb_refl. reflexivity.
  - assert ((maxRetries - S rest' =? maxRetries)%nat = false) as ->
      by (apply Nat.eqb_neq; lia).
    reflexivity.
Qed.

(** The whole of [_performAtomicUpdateWithRetry] with its ceiling of
    three: up to three transactional attempts one after the other, then
    the simple update. *)
Lemma performAtomicUpdateWithRetry_unfolded key updateFn w :
  _performAtomicUpdateWithRetry JSON_parse JSON_stringify key updateFn 3 w =
  match attemptTx key updateFn w with
  | (Returned _, w1) => (Returned tt, w1)
  | (Thrown _, w1) =>
      match attemptTx key updateFn w1 with
      | (Returned _, w2) => (Returned tt, w2)
      | (Thrown _, w2) =>
          match attemptTx key updateFn w2 with
          | (Returned _, w3) => (Returned tt, w3)
          | (Thrown e3, w3) => fallback_after key updateFn e3 w3
          end
      end
  end.
Proof.
  unfold _performAtomicUpdateWithRetry.
  rewrite retry_loop_step by lia.
  destruct (attemptTx key updateFn w) as [[[]|e1] w1]; [reflexivity|].
  rewrite retry_loop_step by lia.
  destruct (attemptTx key updateFn w1) as [[[]|e2] w2]; [reflexivity|].
  rewrite retry_loop_step by lia. reflexivity.
Qed.

(** *** No timer is ever started *)

Lemma timerless_ret {A} (a : A) : timerless (ret a).
Proof. intros w. reflexivity. Qed.

Lemma timerless_throw {A} e : timerless (@throw A e).
Proof. intros w. reflexivity. Qed.

Lemma timerless_bind {A B} (c : M A) (k : A -> M B) :
  timerless c -> (forall a, timerless (k a)) -> timerless (bind c k).
Proof.
  intros Hc Hk w. unfold bind. specialize (Hc w).
  destruct (c w) as [[a|e] w1]; cbn [snd] in *; [|exact Hc].
  by rewrite (Hk a w1).
Qed.

Lemma timerless_try_catch {A} (c : M A) (h : JsValue -> M A) :
  timerless c -> (forall e, timerless (h e)) -> timerless (try_catch c h).
Proof.
  intros Hc Hh w. unfold try_catch. specialize (Hc w).
  destruct (c w) as [[a|e] w1]; cbn [snd] in *; [exact Hc|].
  by rewrite (Hh e w1).
Qed.

Lemma timerless_engine ev :
  (forall ms, ev <> EvSleep ms) -> timerless (engine ev).
Proof.
  intros Hev [s o fs c t tr]. unfold engine, log, set_faults, waits.
  simpl_world.
  destruct fs as [|[e|] rest]; simpl_world; rewrite omap_app; cbn;
    destruct ev; try apply app_nil_r; by destruct (Hev ms).
Qed.

Lemma timerless_read {A} (f : gmap string StorageRecord -> A) :
  timerless (read f).
Proof. intros w. reflexivity. Qed.

Lemma timerless_write f : timerless (write f).
Proof. intros w. reflexivity. Qed.

Lemma timerless_Date_now : timerless Date_now.
Proof. intros w. reflexivity. Qed.

Lemma timerless_transaction {A} (body : M A) :
  timerless body -> timerless (transaction body).
Proof.
  intros Hbody w. unfold transaction.
  pose proof (timerless_engine EvTransaction ltac:(done) w) as H1.
  destruct (engine EvTransaction w) as [[[]|e] w1]; cbn [snd] in *; [|done].
  specialize (Hbody w1).
  destruct (body w1) as [[a|e] w2]; cbn [snd] in *.
  - pose proof (timerless_engine EvCommit ltac:(done) w2) as H3.
    destruct (engine EvCommit w2) as [[[]|e] w3]; cbn [snd] in *;
      unfold set_storage; simpl_world; congruence.
  - unfold set_storage; simpl_world; congruence.
Qed.

Lemma timerless_read_modify_write key updateFn :
  timerless
    (currentRecord <- Table.get key ;;
     currentValue <- current_value JSON_parse currentRecord ;;
     newValue <- call updateFn currentValue ;;
     now <- Date_now ;;
     Table.put (mkRecord key (JSON_stringify newValue) (Some now))).
Proof.
  apply timerless_bind.
  { apply timerless_bind; [by apply timerless_engine|].
    intros _. apply timerless_read. }
  intros currentRecord. apply timerless_bind.
  { unfold current_value. destruct currentRecord as [r|];
      [|apply timerless_ret].
    case_bool_decide; [apply timerless_ret|].
    destruct (JSON_parse (value r));
      [apply timerless_ret|apply timerless_throw]. }
  intros currentValue. apply timerless_bind; [by intros w|].
  intros newValue. apply timerless_bind; [apply timerless_Date_now|].
  intros now. apply timerless_bind; [by apply timerless_engine|].
  intros _. apply timerless_write.
Qed.

Lemma timerless_performSimpleUpdate key updateFn :
  timerless (fallback key updateFn).
Proof.
  apply timerless_try_catch; [apply timerless_read_modify_write|].
  intros e. apply timerless_throw.
Qed.

Lemma timerless_performAtomicUpdate key updateFn :
  timerless (attemptTx key updateFn).
Proof.
  apply timerless_try_catch.
  - apply timerless_transaction, timerless_try_catch;
      [apply timerless_read_modify_write|].
    intros e. apply timerless_throw.
  - intros e. destruct (isError e && name_is e "PrematureCommitError");
      apply timerless_throw.
Qed.

(** [atomicUpdate] never waits: the delays recorded after a call are
    those recorded before it. *)
Lemma atomicUpdate_starts_no_timer key updateFn :
  timerless (atomicUpdate JSON_parse JSON_stringify key updateFn).
Proof.
  apply timerless_bind.
  { intros w. unfold initialize. by destruct (dbOpened w). }
  intros _ w. rewrite performAtomicUpdateWithRetry_unfolded.
  pose proof (timerless_performAtomicUpdate key updateFn) as Htx.
  pose proof (Htx w) as H1.
  destruct (attemptTx key updateFn w) as [[[]|e1] w1]; cbn [snd] in *;
    [done|].
  pose proof (Htx w1) as H2.
  destruct (attemptTx key updateFn w1) as [[[]|e2] w2]; cbn [snd] in *;
    [congruence|].
  pose proof (Htx w2) as H3.
  destruct (attemptTx key updateFn w2) as [[[]|e3] w3]; cbn [snd] in *;
    [congruence|].
  rewrite (timerless_try_catch (fallback key updateFn)
             (fun _ => throw e3) (timerless_performSimpleUpdate _ _)
             (fun _ => timerless_throw e3) w3).
  congruence.
Qed.

(** C6. When the three transactional attempts of an [atomicUpdate] have
    all failed, the simple update is run; if it returns, the call returns
    normally; if it fails too, the call raises the failure [e3] of the
    last transactional attempt and not the failure of the simple
    update. *)
Theorem exhausted_attempts_end_in_fallback
    (key : string) (updateFn : option T -> Result T)
    (w w1 w2 w3 : World) (e1 e2 e3 : JsValue) :
  dbOpened w = None ->
  attemptTx key updateFn w = (Thrown e1, w1) ->
  attemptTx key updateFn w1 = (Thrown e2, w2) ->
  attemptTx key updateFn w2 = (Thrown e3, w3) ->
  atomicUpdate JSON_parse JSON_stringify key updateFn w =
  match fallback key updateFn w3 with
  | (Returned _, w4) => (Returned tt, w4)
  | (Thrown _, w4) => (Thrown e3, w4)
  end.
Proof.
  intros Hopen H1 H2 H3. unfold atomicUpdate.
  rewrite (after_initialize _ _ Hopen).
  rewrite performAtomicUpdateWithRetry_unfolded, H1, H2, H3.
  unfold try_catch.
  destruct (fallback key updateFn w3) as [[[]|e] w4]; reflexivity.
Qed.

End EngineFacts.

(** ** C1, C3, C6 on concrete runs *)

Lemma exhausted_attempts_end_in_fallback_witness :
  let conflicts :=
    [None; None; None; Some commit_conflict;
     None; None; None; Some commit_conflict;
     None; None; None; Some commit_conflict] in
  let after :=
    atomicUpdate JSON_parse_nat JSON_stringify_nat "counter" increment
      (fresh_world conflicts) in
  after.1 = Returned tt
  /\ value <$> storage after.2 !! "counter" = Some "1".
Proof.
  intros conflicts after. subst after.
  erewrite exhausted_attempts_end_in_fallback by reflexivity.
  split; reflexivity.
Defined.

(** C1. A run in which the first transactional attempt ends in a commit
    conflict ([PrematureCommitError]) and the engine answers every later
    call.  The call returns, but the second transaction is opened
    right after the first has failed: no delay of 100 ms, nor any other, is
    waited for. *)
Theorem commit_conflict_is_retried_without_delay :
  let after :=
    atomicUpdate JSON_parse_nat JSON_stringify_nat "counter" increment
      (fresh_world [None; None; None; Some commit_conflict]) in
  after.1 = Returned tt
  /\ trace after.2
     = [EvTransaction; EvGet "counter"; EvPut "counter"; EvCommit;
        EvTransaction; EvGet "counter"; EvPut "counter"; EvCommit]
  /\ waits (trace after.2) = [].
Proof. repeat split; reflexivity. Qed.

(** C3. A run in which the write of the first transactional attempt is
    refused for lack of quota, a failure that is not a commit conflict.
    The engine does not go to the simple update: it opens a second
    transaction, which succeeds. *)
Theorem permanent_failure_is_retried_in_a_transaction :
  let after :=
    atomicUpdate JSON_parse_nat JSON_stringify_nat "counter" increment
      (fresh_world [None; None; Some quota_exceeded]) in
  after.1 = Returned tt
  /\ trace after.2
     = [EvTransaction; EvGet "counter"; EvPut "counter";
        EvTransaction; EvGet "counter"; EvPut "counter"; EvCommit].
Proof. repeat split; reflexivity. Qed.

(** ** Overlapping calls *)

Import EventLoop.

(** A call made while nothing is in flight runs as [atomicUpdate] does. *)
Lemma lone_call_is_atomicUpdate
    {T} (JSON_parse : string -> option T) (JSON_stringify : T -> string)
    (c : Call) (w : World) :
  dbOpened w = None ->
  exists l,
    run JSON_parse JSON_stringify [Invoke c; Settle 0%nat] (idle w) = Some l
    /\ (finished l, world l)
       = (let after :=
            atomicUpdate JSON_parse JSON_stringify (call_key c) (call_fn c) w
          in ([(caller c, after.1)], after.2))
    /\ keyLocks l = ∅ /\ in_flight l = [] /\ suspended l = [].
Proof.
  intros Hopen. unfold atomicUpdate. rewrite (after_initialize _ _ Hopen).
  cbn [run step]. unfold invoke. cbn [idle world keyLocks].
  rewrite (initialize_opened _ Hopen), lookup_empty.
  unfold settle, find_in_flight, start, idle.
  cbn [world keyLocks in_flight settled suspended finished next_promise
       app List.find List.filter awaited fst snd].
  rewrite !bool_decide_eq_true_2 by done.
  cbn [fmap option_fmap option_map snd negb foldl].
  destruct (_performAtomicUpdateWithRetry _ _ _ _ _ w) as [r w'].
  eexists. split; [reflexivity|].
  cbn [resume finish world keyLocks in_flight settled suspended finished
       next_promise app fst snd].
  split; [reflexivity|]. split; [|done].
  by rewrite delete_insert_eq, delete_empty.
Qed.

(** A call on a key that has no entry in [keyLocks] starts at once,
    whatever is in flight for other keys. *)
Lemma free_key_starts_at_once {T} (c : Call (T:=T)) (l : Loop) :
  dbOpened (world l) = None ->
  keyLocks l !! lockKey c = None ->
  in_flight (invoke c l) = in_flight l ++ [(next_promise l, c)].
Proof.
  intros Hopen Hfree. unfold invoke.
  by rewrite (initialize_opened _ Hopen), Hfree.
Qed.

(** C2. A run in which, while caller 1 updates the key "counter",
    callers 2 and 3 call [atomicUpdate] for the same key; both await the
    promise of caller 1.  When it settles, caller 1 has finished, and the
    invocations of callers 2 and 3 are in flight together. *)
Theorem two_waiters_update_the_same_key_together :
  let c1 := mkCall 1 "counter" increment in
  let c2 := mkCall 2 "counter" increment in
  let c3 := mkCall 3 "counter" increment in
  let l := run JSON_parse_nat JSON_stringify_nat
               [Invoke c1; Invoke c2; Invoke c3; Settle 0%nat]
               (idle (fresh_world [])) in
  (executing "counter" <$> l) = Some [2; 3]%nat
  /\ (finished <$> l) = Some [(1%nat, Returned tt)].
Proof. split; reflexivity. Qed.

(** When the update of caller 1 fails for good, caller 2, who awaited its
    promise, fails with the error of caller 1 and its own update is never
    run. *)
Lemma failure_of_the_holder_fails_the_waiter :
  let c1 := mkCall 1 "counter" increment in
  let c2 := mkCall 2 "counter" increment in
  let refused := Some quota_exceeded in
  let l := run JSON_parse_nat JSON_stringify_nat
               [Invoke c1; Invoke c2; Settle 0%nat]
               (idle (fresh_world [refused; refused; refused; refused])) in
  let error := new_Error "Failed to perform atomic update: counter" in
  (finished <$> l) = Some [(1%nat, Thrown error); (2%nat, Thrown error)]
  /\ (executing "counter" <$> l) = Some []
  /\ (fun l => trace (world l)) <$> l
     = Some [EvTransaction; EvTransaction; EvTransaction; EvGet "counter"].
Proof. repeat split; reflexivity. Qed.
